(** * runtime/metrics: the catalog of metric descriptions

    A shallow embedding of [description.go]: the [Description] record, the
    package-level table [allDesc] and the accessor [All], together with the
    properties of the table that the package documentation states.

    Go strings are byte sequences; every byte of the table is ASCII, so a
    [string] of [ascii] characters represents them exactly, and byte-wise
    comparison is [String.compare]. *)

From Stdlib Require Import Ascii String.
From stdpp Require Import base option list sorting strings gmap.

(** ** Data model *)

(** Modelled from the spec: the enumeration [ValueKind] is declared in
    another file of the package ([value.go]); the table only names these
    two of its constants, and the record only stores which one applies. *)
Inductive ValueKind : Set :=
  | KindUint64
  | KindFloat64Histogram.

Global Instance ValueKind_eq_dec : EqDecision ValueKind.
Proof. solve_decision. Defined.

(** [type Description struct { Name; Description; Kind; Cumulative }].
    The field [Description] is spelled [Description_] here, the record
    itself having that name. *)
Record Description : Set := mkDescription {
  Name : string;
  Description_ : string;
  Kind : ValueKind;
  Cumulative : bool;
}.

Global Instance Description_eq_dec : EqDecision Description.
Proof. solve_decision. Defined.

(** ** The table

    A composite literal that leaves [Cumulative] out gives it Go's zero
    value, [false].  The pieces of a description that the source joins with
    [+] are joined with [+:+] here. *)
Definition allDesc_literal : list Description := [
  {| Name := "/gc/cycles/automatic:gc-cycles";
     Description_ := "Count of completed GC cycles generated by the Go runtime.";
     Kind := KindUint64;
     Cumulative := true |};
  {| Name := "/gc/cycles/forced:gc-cycles";
     Description_ := "Count of completed GC cycles forced by the application.";
     Kind := KindUint64;
     Cumulative := true |};
  {| Name := "/gc/cycles/total:gc-cycles";
     Description_ := "Count of all completed GC cycles.";
     Kind := KindUint64;
     Cumulative := true |};
  {| Name := "/gc/heap/allocs-by-size:bytes";
     Description_ := "Distribution of heap allocations by approximate size. " +:+
       "Note that this does not include tiny objects as defined by " +:+
       "/gc/heap/tiny/allocs:objects, only tiny blocks.";
     Kind := KindFloat64Histogram;
     Cumulative := true |};
  {| Name := "/gc/heap/allocs:bytes";
     Description_ := "Cumulative sum of memory allocated to the heap by the application.";
     Kind := KindUint64;
     Cumulative := true |};
  {| Name := "/gc/heap/allocs:objects";
     Description_ := "Cumulative count of heap allocations triggered by the application. " +:+
       "Note that this does not include tiny objects as defined by " +:+
       "/gc/heap/tiny/allocs:objects, only tiny blocks.";
     Kind := KindUint64;
     Cumulative := true |};
  {| Name := "/gc/heap/frees-by-size:bytes";
     Description_ := "Distribution of freed heap allocations by approximate size. " +:+
       "Note that this does not include tiny objects as defined by " +:+
       "/gc/heap/tiny/allocs:objects, only tiny blocks.";
     Kind := KindFloat64Histogram;
     Cumulative := true |};
  {| Name := "/gc/heap/frees:bytes";
     Description_ := "Cumulative sum of heap memory freed by the garbage collector.";
     Kind := KindUint64;
     Cumulative := true |};
  {| Name := "/gc/heap/frees:objects";
     Description_ := "Cumulative count of heap allocations whose storage was freed " +:+
       "by the garbage collector. " +:+
       "Note that this does not include tiny objects as defined by " +:+
       "/gc/heap/tiny/allocs:objects, only tiny blocks.";
     Kind := KindUint64;
     Cumulative := true |};
  {| Name := "/gc/heap/goal:bytes";
     Description_ := "Heap size target for the end of the GC cycle.";
     Kind := KindUint64;
     Cumulative := false |};
  {| Name := "/gc/heap/objects:objects";
     Description_ := "Number of objects, live or unswept, occupying heap memory.";
     Kind := KindUint64;
     Cumulative := false |};
  {| Name := "/gc/heap/tiny/allocs:objects";
     Description_ := "Count of small allocations that are packed together into blocks. " +:+
       "These allocations are counted separately from other allocations " +:+
       "because each individual allocation is not tracked by the runtime, " +:+
       "only their block. Each block is already accounted for in " +:+
       "allocs-by-size and frees-by-size.";
     Kind := KindUint64;
     Cumulative := true |};
  {| Name := "/gc/pauses:seconds";
     Description_ := "Distribution individual GC-related stop-the-world pause latencies.";
     Kind := KindFloat64Histogram;
     Cumulative := true |};
  {| Name := "/gc/stack/starting-size:bytes";
     Description_ := "The stack size of new goroutines.";
     Kind := KindUint64;
     Cumulative := false |};
  {| Name := "/memory/classes/heap/free:bytes";
     Description_ := "Memory that is completely free and eligible to be returned to the underlying system, " +:+
       "but has not been. This metric is the runtime's estimate of free address space that is backed by " +:+
       "physical memory.";
     Kind := KindUint64;
     Cumulative := false |};
  {| Name := "/memory/classes/heap/objects:bytes";
     Description_ := "Memory occupied by live objects and dead objects that have not yet been marked free by the garbage collector.";
     Kind := KindUint64;
     Cumulative := false |};
  {| Name := "/memory/classes/heap/released:bytes";
     Description_ := "Memory that is completely free and has been returned to the underlying system. This " +:+
       "metric is the runtime's estimate of free address space that is still mapped into the process, " +:+
       "but is not backed by physical memory.";
     Kind := KindUint64;
     Cumulative := false |};
  {| Name := "/memory/classes/heap/stacks:bytes";
     Description_ := "Memory allocated from the heap that is reserved for stack space, whether or not it is currently in-use.";
     Kind := KindUint64;
     Cumulative := false |};
  {| Name := "/memory/classes/heap/unused:bytes";
     Description_ := "Memory that is reserved for heap objects but is not currently used to hold heap objects.";
     Kind := KindUint64;
     Cumulative := false |};
  {| Name := "/memory/classes/metadata/mcache/free:bytes";
     Description_ := "Memory that is reserved for runtime mcache structures, but not in-use.";
     Kind := KindUint64;
     Cumulative := false |};
  {| Name := "/memory/classes/metadata/mcache/inuse:bytes";
     Description_ := "Memory that is occupied by runtime mcache structures that are currently being used.";
     Kind := KindUint64;
     Cumulative := false |};
  {| Name := "/memory/classes/metadata/mspan/free:bytes";
     Description_ := "Memory that is reserved for runtime mspan structures, but not in-use.";
     Kind := KindUint64;
     Cumulative := false |};
  {| Name := "/memory/classes/metadata/mspan/inuse:bytes";
     Description_ := "Memory that is occupied by runtime mspan structures that are currently being used.";
     Kind := KindUint64;
     Cumulative := false |};
  {| Name := "/memory/classes/metadata/other:bytes";
     Description_ := "Memory that is reserved for or used to hold runtime metadata.";
     Kind := KindUint64;
     Cumulative := false |};
  {| Name := "/memory/classes/os-stacks:bytes";
     Description_ := "Stack memory allocated by the underlying operating system.";
     Kind := KindUint64;
     Cumulative := false |};
  {| Name := "/memory/classes/other:bytes";
     Description_ := "Memory used by execution trace buffers, structures for debugging the runtime, finalizer and profiler specials, and more.";
     Kind := KindUint64;
     Cumulative := false |};
  {| Name := "/memory/classes/profiling/buckets:bytes";
     Description_ := "Memory that is used by the stack trace hash map used for profiling.";
     Kind := KindUint64;
     Cumulative := false |};
  {| Name := "/memory/classes/total:bytes";
     Description_ := "All memory mapped by the Go runtime into the current process as read-write. Note that this does not include memory mapped by code called via cgo or via the syscall package. Sum of all metrics in /memory/classes.";
     Kind := KindUint64;
     Cumulative := false |};
  {| Name := "/sched/goroutines:goroutines";
     Description_ := "Count of live goroutines.";
     Kind := KindUint64;
     Cumulative := false |};
  {| Name := "/sched/latencies:seconds";
     Description_ := "Distribution of the time goroutines have spent in the scheduler in a runnable state before actually running.";
     Kind := KindFloat64Histogram;
     Cumulative := false |}
].

(** ** Slices and the package state

    A Go slice is a header (pointer to a backing array, length, capacity);
    copying the header does not copy the array.  The package variable
    [allDesc] is such a header, and the arrays live in a heap shared by the
    package and its callers. *)
Definition loc := nat.

Record Slice : Set := mkSlice {
  ptr : loc;
  len : nat;
  cap : nat;
}.

Global Instance Slice_eq_dec : EqDecision Slice.
Proof. solve_decision. Defined.

Record Process : Type := mkProcess {
  heap : gmap loc (list Description);
  allDesc : Slice;
}.

(** Package initialisation: the composite literal allocates one array and
    [allDesc] is the slice of all of it. *)
Definition init : Process :=
  {| heap := {[ 0 := allDesc_literal ]};
     allDesc := {| ptr := 0;
                   len := length allDesc_literal;
                   cap := length allDesc_literal |} |}.

(** A Go computation either returns a value or panics; both leave a
    process state behind. *)
Inductive Result (A : Type) : Type :=
  | Ok (a : A) (p : Process)
  | Panic (msg : string) (p : Process).
Arguments Ok {A} a p.
Arguments Panic {A} msg p.

Definition Go (A : Type) : Type := Process → Result A.

Global Instance Go_ret : MRet Go := λ A a p, Ok a p.
Global Instance Go_bind : MBind Go := λ A B k m p,
  match m p with
  | Ok a p' => k a p'
  | Panic msg p' => Panic msg p'
  end.

(** [func All() []Description { return allDesc }] *)
Definition All : Go Slice := λ p, Ok (allDesc p) p.

(** [s[i]] as an expression: a run-time panic if [i] is out of range. *)
Definition index (s : Slice) (i : nat) : Go Description := λ p,
  if decide (i < len s) then
    match heap p !! ptr s ≫= (.!! i) with
    | Some d => Ok d p
    | None => Panic "invalid memory address" p
    end
  else Panic "index out of range" p.

(** [s[i] = d]: the element is written into the backing array. *)
Definition store (s : Slice) (i : nat) (d : Description) : Go () := λ p,
  if decide (i < len s) then
    match heap p !! ptr s with
    | Some a => Ok () {| heap := <[ptr s := <[i := d]> a]> (heap p);
                         allDesc := allDesc p |}
    | None => Panic "invalid memory address" p
    end
  else Panic "index out of range" p.

(** What a caller ranging over [s] in state [p] sees. *)
Definition elements (s : Slice) (p : Process) : option (list Description) :=
  take (len s) <$> heap p !! ptr s.

(** The package state is well formed when [allDesc] points to an array at
    least as long as the slice. *)
Definition wf (p : Process) : Prop :=
  ∃ a, heap p !! ptr (allDesc p) = Some a ∧ len (allDesc p) ≤ length a.

(** The catalog: what [All()] shows right after package initialisation. *)
Definition catalog : list Description :=
  match All init with
  | Ok s p => default [] (elements s p)
  | Panic _ _ => []
  end.

(** A caller that obtains the catalog, overwrites element [i] of what it
    was given, and asks for the catalog again. *)
Definition overwrite_then_All (i : nat) (d : Description) : Go Slice :=
  s1 ← All; _ ← store s1 i d; All.

(** Two calls in a row. *)
Definition All_twice : Go (Slice * Slice) :=
  s1 ← All; s2 ← All; mret (s1, s2).

(** ** Strings as bytes *)

Definition bytes (s : string) : list ascii := list_ascii_of_string s.

(** [strings.HasPrefix] and [strings.HasSuffix]. *)
Definition HasPrefix (s pre : string) : bool := String.prefix pre s.

Fixpoint HasSuffix (s suf : string) : bool :=
  if decide (s = suf) then true
  else match s with
       | EmptyString => false
       | String _ s' => HasSuffix s' suf
       end.

(** [strings.Count] for a one-byte separator. *)
Definition Count (s : string) (c : ascii) : nat :=
  length (filter (λ x, x = c) (bytes s)).

(** [strings.Cut]: the text before and after the first [c], if any. *)
Fixpoint Cut (s : string) (c : ascii) : option (string * string) :=
  match s with
  | EmptyString => None
  | String x s' =>
      if decide (x = c) then Some (EmptyString, s')
      else prod_map (String x) id <$> Cut s' c
  end.

(** Byte-wise order on names: Go's [<] on strings. *)
Definition name_lt (d1 d2 : Description) : Prop :=
  String.compare (Name d1) (Name d2) = Lt.

Global Instance name_lt_dec : RelDecision name_lt.
Proof. intros d1 d2. unfold name_lt. solve_decision. Defined.

(** A sentence ends with terminal punctuation. *)
Definition ends_sentence (s : string) : bool :=
  HasSuffix s "." || HasSuffix s "!" || HasSuffix s "?".

(** Filtering the catalog for one kind, as the doc comment of [Kind]
    suggests callers do. *)
Definition of_kind (k : ValueKind) (l : list Description) : list Description :=
  filter (λ d, Kind d = k) l.

(** ** The naming grammar

    The doc comment of [Name] gives the format as an anchored regular
    expression with two named groups around a colon: [name], which is
    [/[^:]+], and [unit], which is [[^:*/]+] followed by any number of
    [[*/][^:*/]+].  It is embedded as a term of [regexp]; a character class
    is a predicate on bytes.  (Every byte of a multi-byte UTF-8 sequence is above 127, so
    on valid UTF-8 the byte-level classes accept what the rune-level ones
    do.) *)
Inductive regexp : Type :=
  | Void
  | Eps
  | Class (p : ascii → bool)
  | Cat (r1 r2 : regexp)
  | Alt (r1 r2 : regexp)
  | Star (r : regexp).

Definition Plus (r : regexp) : regexp := Cat r (Star r).

Inductive matches : regexp → list ascii → Prop :=
  | matches_eps : matches Eps []
  | matches_class p c : p c = true → matches (Class p) [c]
  | matches_cat r1 r2 s1 s2 :
      matches r1 s1 → matches r2 s2 → matches (Cat r1 r2) (s1 ++ s2)
  | matches_alt_l r1 r2 s : matches r1 s → matches (Alt r1 r2) s
  | matches_alt_r r1 r2 s : matches r2 s → matches (Alt r1 r2) s
  | matches_star_nil r : matches (Star r) []
  | matches_star_app r s1 s2 :
      matches r s1 → matches (Star r) s2 → matches (Star r) (s1 ++ s2).

Fixpoint nullable (r : regexp) : bool :=
  match r with
  | Void => false
  | Eps => true
  | Class _ => false
  | Cat r1 r2 => nullable r1 && nullable r2
  | Alt r1 r2 => nullable r1 || nullable r2
  | Star _ => true
  end.

Fixpoint deriv (c : ascii) (r : regexp) : regexp :=
  match r with
  | Void => Void
  | Eps => Void
  | Class p => if p c then Eps else Void
  | Cat r1 r2 =>
      if nullable r1 then Alt (Cat (deriv c r1) r2) (deriv c r2)
      else Cat (deriv c r1) r2
  | Alt r1 r2 => Alt (deriv c r1) (deriv c r2)
  | Star r' => Cat (deriv c r') (Star r')
  end.

(** Anchored matching ([^...$]) by derivatives. *)
Fixpoint re_match (r : regexp) (s : list ascii) : bool :=
  match s with
  | [] => nullable r
  | c :: s' => re_match (deriv c r) s'
  end.

Definition is_byte (c x : ascii) : bool := bool_decide (x = c).
Definition not_colon (x : ascii) : bool := bool_decide (x ≠ ":"%char).
Definition is_delim (x : ascii) : bool :=
  bool_decide (x = "*"%char ∨ x = "/"%char).
Definition unit_byte (x : ascii) : bool :=
  bool_decide (x ≠ ":"%char ∧ x ≠ "*"%char ∧ x ≠ "/"%char).

(** [/[^:]+] *)
Definition path_re : regexp :=
  Cat (Class (is_byte "/")) (Plus (Class not_colon)).

(** [[^:*/]+] and then [[*/][^:*/]+] any number of times *)
Definition unit_re : regexp :=
  Cat (Plus (Class unit_byte))
      (Star (Cat (Class is_delim) (Plus (Class unit_byte)))).

Definition name_re : regexp :=
  Cat path_re (Cat (Class (is_byte ":")) unit_re).

(** The grammar in words.  A unit term is a non-empty run of bytes other
    than [:], [*] and [/]; a unit is one or more terms joined by [*] or
    [/]; a name has exactly one [:], a path before it that starts with [/]
    and goes on after it, and a unit after it. *)
Definition unit_term (t : list ascii) : Prop :=
  t ≠ [] ∧ ∀ c, c ∈ t → c ≠ ":"%char ∧ c ≠ "*"%char ∧ c ≠ "/"%char.

Inductive unit_terms : list ascii → Prop :=
  | unit_terms_one t : unit_term t → unit_terms t
  | unit_terms_join t c u :
      unit_term t → c = "*"%char ∨ c = "/"%char → unit_terms u →
      unit_terms (t ++ c :: u).

Definition splits_as (n path unit : string) : Prop :=
  n = path +:+ ":" +:+ unit.

Definition well_named (n : string) : Prop :=
  Count n ":" = 1 ∧
  ∃ path unit, splits_as n path unit ∧
    (∃ rest, path = "/" +:+ rest ∧ rest ≠ EmptyString) ∧
    unit_terms (bytes unit).

(** ** Observations and catalog-wide predicates *)

(** What a caller sees when it runs [m] in state [p] and ranges over the
    slice it gets. *)
Definition observe (m : Go Slice) (p : Process) : option (list Description) :=
  match m p with
  | Ok s p' => elements s p'
  | Panic _ _ => None
  end.

(** A value that is not in the table, for a caller to write. *)
Definition scribble : Description :=
  {| Name := "/scribble:units";
     Description_ := "Written by a caller.";
     Kind := KindUint64;
     Cumulative := false |}.

(** The state a computation leaves behind, whether it returned or
    panicked (a caller may recover and go on). *)
Definition after {A} (m : Go A) (p : Process) : Process :=
  match m p with
  | Ok _ p' => p'
  | Panic _ p' => p'
  end.

(** What callers can do to the package between two calls of [All]: any
    number of element writes through slices they hold.  The variable
    [allDesc] is unexported and nothing in the package assigns to it. *)
Fixpoint caller_writes (ws : list (Slice * nat * Description))
    (p : Process) : Process :=
  match ws with
  | [] => p
  | (s, i, d) :: ws' => caller_writes ws' (after (store s i d) p)
  end.

(** Adjacent entries are in strictly ascending byte-wise order of name. *)
Definition sorted_by_name (l : list Description) : Prop :=
  ∀ i d1 d2, l !! i = Some d1 → l !! S i = Some d2 → name_lt d1 d2.

(** Entries at distinct indices have distinct names. *)
Definition names_distinct (l : list Description) : Prop :=
  ∀ i j d1 d2, i ≠ j → l !! i = Some d1 → l !! j = Some d2 →
               Name d1 ≠ Name d2.

(** The entries under [/memory/classes/] other than the total. *)
Definition memory_classes_parts (l : list Description) : list Description :=
  filter (λ d, HasPrefix (Name d) "/memory/classes/" = true ∧
               Name d ≠ "/memory/classes/total:bytes"%string) l.


(** ** Components of a name and the naming convention *)

(** The two groups of the format, read off a name by cutting at the
    colon. *)
Definition name_path (n : string) : option string := fst <$> Cut n ":".
Definition name_unit (n : string) : option string := snd <$> Cut n ":".




(** A caller's own copy of the table, in an array of its own at [l]
    (what [copy(dst, All())] into a fresh slice leaves behind). *)
Definition with_copy (l : loc) (p : Process) : Process :=
  {| heap := <[l := default [] (elements (allDesc p) p)]> (heap p);
     allDesc := allDesc p |}.

(** * Properties *)

(** ** Matching by derivatives is matching *)
Section Derivatives.
Implicit Types (r : regexp) (s : list ascii) (c : ascii).

Lemma class_inv p s : matches (Class p) s → ∃ c, s = [c] ∧ p c = true.
Proof. inversion 1; subst; eauto. Qed.

Lemma cat_inv r1 r2 s :
  matches (Cat r1 r2) s →
  ∃ s1 s2, s = s1 ++ s2 ∧ matches r1 s1 ∧ matches r2 s2.
Proof. inversion 1; subst; eauto. Qed.

Lemma alt_inv r1 r2 s : matches (Alt r1 r2) s → matches r1 s ∨ matches r2 s.
Proof. inversion 1; subst; eauto. Qed.

Lemma nullable_spec r : nullable r = true ↔ matches r [].
Proof.
  induction r as [| |p|r1 IH1 r2 IH2|r1 IH1 r2 IH2|r IH]; simpl.
  - split; [discriminate | inversion 1].
  - split; [constructor | done].
  - split; [discriminate | inversion 1].
  - rewrite andb_true_iff, IH1, IH2. split.
    + intros [H1 H2]. by apply (matches_cat _ _ [] []).
    + intros (s1 & s2 & Hs & H1 & H2)%cat_inv.
      symmetry in Hs. apply app_eq_nil in Hs as [-> ->]. done.
  - rewrite orb_true_iff, IH1, IH2. split.
    + intros [H|H]; [by apply matches_alt_l | by apply matches_alt_r].
    + apply alt_inv.
  - split; [constructor | done].
Qed.

Lemma star_cons_inv r c s :
  matches (Star r) (c :: s) →
  ∃ s1 s2, s = s1 ++ s2 ∧ matches r (c :: s1) ∧ matches (Star r) s2.
Proof.
  remember (Star r) as r' eqn:Hr. remember (c :: s) as cs eqn:Hcs.
  intros H. revert Hr Hcs.
  induction H as [| | | | | |r0 s1 s2 H1 _ H2 IH2]; try discriminate.
  intros [= ->] Hcs. destruct s1 as [|x s1]; simpl in Hcs.
  - by apply IH2.
  - injection Hcs as -> <-. by exists s1, s2.
Qed.

Lemma deriv_spec c r s : matches (deriv c r) s ↔ matches r (c :: s).
Proof.
  revert s.
  induction r as [| |p|r1 IH1 r2 IH2|r1 IH1 r2 IH2|r IH]; intros s; simpl.
  - split; inversion 1.
  - split; inversion 1.
  - destruct (p c) eqn:Hp; split.
    + inversion 1; subst. by constructor.
    + intros (x & [= -> ->] & Hx)%class_inv. constructor.
    + inversion 1.
    + intros (x & [= -> ->] & Hx)%class_inv. congruence.
  - assert (Hcat : ∀ s, matches (Cat (deriv c r1) r2) s →
                        matches (Cat r1 r2) (c :: s)).
    { intros s' (s1 & s2 & -> & H1 & H2)%cat_inv.
      apply IH1 in H1. by apply (matches_cat _ _ (c :: s1) s2). }
    split.
    + destruct (nullable r1) eqn:Hn; [|by apply Hcat].
      intros [H1|H2]%alt_inv; [by apply Hcat|].
      apply IH2 in H2. apply nullable_spec in Hn.
      by apply (matches_cat _ _ [] (c :: s)).
    + intros (s1 & s2 & Hs & H1 & H2)%cat_inv.
      destruct s1 as [|x s1]; simpl in Hs.
      * subst s2. apply nullable_spec in H1. rewrite H1.
        apply matches_alt_r. by apply IH2.
      * injection Hs as <- ->. apply IH1 in H1.
        assert (matches (Cat (deriv c r1) r2) (s1 ++ s2)) by by constructor.
        destruct (nullable r1); [by apply matches_alt_l | done].
  - split.
    + intros [H|H]%alt_inv.
      * apply matches_alt_l. by apply IH1.
      * apply matches_alt_r. by apply IH2.
    + intros [H|H]%alt_inv.
      * apply matches_alt_l. by apply IH1.
      * apply matches_alt_r. by apply IH2.
  - split.
    + intros (s1 & s2 & -> & H1 & H2)%cat_inv.
      apply IH in H1. by apply (matches_star_app _ (c :: s1) s2).
    + intros (s1 & s2 & -> & H1 & H2)%star_cons_inv.
      constructor; [by apply IH | done].
Qed.

Lemma re_match_spec r s : re_match r s = true ↔ matches r s.
Proof.
  revert r. induction s as [|c s IH]; intros r; simpl.
  - apply nullable_spec.
  - rewrite IH. apply deriv_spec.
Qed.

End Derivatives.

(** ** The regular expression says what the grammar says in words *)
Section Grammar.
Implicit Types (s t u : list ascii) (c : ascii) (n : string).

Lemma bytes_app (a b : string) : bytes (a +:+ b) = bytes a ++ bytes b.
Proof. induction a as [|x a IH]; simpl; [done | by rewrite IH]. Qed.

Lemma bytes_inj (a b : string) : bytes a = bytes b → a = b.
Proof.
  intros H. rewrite <- (string_of_list_ascii_of_string a),
    <- (string_of_list_ascii_of_string b). unfold bytes in H. by rewrite H.
Qed.

Lemma bytes_of_list s : bytes (string_of_list_ascii s) = s.
Proof. apply list_ascii_of_string_of_list_ascii. Qed.

Lemma star_class_inv p s :
  matches (Star (Class p)) s → Forall (λ c, p c = true) s.
Proof.
  remember (Star (Class p)) as r eqn:Hr. intros H. revert Hr.
  induction H as [| | | | | |r0 s1 s2 H1 _ H2 IH2]; try discriminate.
  - constructor.
  - intros [= ->]. apply class_inv in H1 as (c & -> & Hc).
    constructor; [done | by apply IH2].
Qed.

Lemma plus_class p s :
  matches (Plus (Class p)) s ↔ s ≠ [] ∧ Forall (λ c, p c = true) s.
Proof.
  split.
  - intros (s1 & s2 & -> & (c & -> & Hc)%class_inv & H2%star_class_inv)%cat_inv.
    split; [done | by constructor].
  - intros [Hne Hall]. destruct s as [|c s]; [done|].
    apply Forall_cons in Hall as [Hc Hall].
    apply (matches_cat _ _ [c] s); [by constructor|].
    clear Hne Hc. induction Hall as [|x s Hx _ IH]; [constructor|].
    apply (matches_star_app _ [x] s); [by constructor | done].
Qed.

Lemma unit_byte_term t :
  t ≠ [] ∧ Forall (λ c, unit_byte c = true) t ↔ unit_term t.
Proof.
  unfold unit_term, unit_byte. rewrite Forall_forall.
  setoid_rewrite bool_decide_eq_true. done.
Qed.

Lemma is_delim_iff c : is_delim c = true ↔ c = "*"%char ∨ c = "/"%char.
Proof. unfold is_delim. by rewrite bool_decide_eq_true. Qed.

Lemma unit_tail_terms t s :
  unit_term t →
  matches (Star (Cat (Class is_delim) (Plus (Class unit_byte)))) s →
  unit_terms (t ++ s).
Proof.
  remember (Star _) as r eqn:Hr. intros Ht H. revert t Ht Hr.
  induction H as [| | | | | |r0 s1 s2 H1 _ H2 IH2]; try discriminate.
  - intros t Ht _. rewrite app_nil_r. by constructor.
  - intros t Ht [= ->].
    apply cat_inv in H1 as (d & t1 & -> & (c & -> & Hc)%class_inv & H1).
    apply plus_class, unit_byte_term in H1. apply is_delim_iff in Hc.
    simpl. apply unit_terms_join; auto.
Qed.

Lemma unit_re_terms u : matches unit_re u ↔ unit_terms u.
Proof.
  split.
  - intros (t & s & -> & Ht & Hs)%cat_inv.
    apply plus_class, unit_byte_term in Ht. by apply unit_tail_terms.
  - induction 1 as [t Ht|t c u Ht Hc _ IH].
    + rewrite <- (app_nil_r t). apply matches_cat; [|constructor].
      by apply plus_class, unit_byte_term.
    + apply cat_inv in IH as (t' & s & -> & Ht' & Hs).
      apply matches_cat; [by apply plus_class, unit_byte_term|].
      apply (matches_star_app _ (c :: t') s); [|done].
      apply (matches_cat _ _ [c] t'); [|done].
      constructor. by apply is_delim_iff.
Qed.

Lemma unit_terms_no_colon u c : unit_terms u → c ∈ u → c ≠ ":"%char.
Proof.
  induction 1 as [t [_ Ht]|t d u [_ Ht] Hd _ IH].
  - intros Hc. by apply Ht.
  - rewrite elem_of_app, elem_of_cons. intros [Hc|[->|Hc]].
    + by apply Ht.
    + by destruct Hd as [-> | ->].
    + by apply IH.
Qed.

Lemma filter_none c s : (∀ x, x ∈ s → x ≠ c) ↔ filter (λ x, x = c) s = [].
Proof.
  induction s as [|y s IH].
  - split; [done | intros _ x Hx; by apply elem_of_nil in Hx].
  - destruct (decide (y = c)) as [->|Hy].
    + rewrite filter_cons_True by done. split; [|done].
      intros H. by destruct (H c); [left|].
    + rewrite filter_cons_False by done. rewrite <- IH. split.
      * intros H x Hx. apply H. by right.
      * intros H x [->|Hx]%elem_of_cons; auto.
Qed.

Lemma Count_split (path unit : string) :
  Count (path +:+ ":" +:+ unit) ":" = S (Count path ":" + Count unit ":").
Proof.
  unfold Count. rewrite !bytes_app, filter_app. simpl.
  rewrite filter_cons_True by done. rewrite length_app. simpl. lia.
Qed.

Lemma Count_zero n c : Count n c = 0 ↔ ∀ x, x ∈ bytes n → x ≠ c.
Proof. unfold Count. by rewrite length_zero_iff_nil, filter_none. Qed.

Lemma path_re_spec s :
  matches path_re s ↔
  ∃ rest, s = "/"%char :: rest ∧ rest ≠ [] ∧ ∀ x, x ∈ rest → x ≠ ":"%char.
Proof.
  unfold path_re. split.
  - intros (s1 & q & -> & (c & -> & Hc)%class_inv & [Hne Hq]%plus_class)%cat_inv.
    apply bool_decide_eq_true in Hc as ->. exists q. split; [done|].
    split; [done|]. rewrite Forall_forall in Hq. intros x Hx.
    specialize (Hq x Hx). by apply bool_decide_eq_true in Hq.
  - intros (rest & -> & Hne & Hrest).
    apply (matches_cat _ _ ["/"%char] rest); [by constructor|].
    apply plus_class. split; [done|]. apply Forall_forall. intros x Hx.
    apply bool_decide_eq_true. by apply Hrest.
Qed.

(** The format of the doc comment and the grammar in words accept the
    same names. *)
Lemma name_re_well_named n : matches name_re (bytes n) ↔ well_named n.
Proof.
  unfold name_re, well_named, splits_as. split.
  - intros (p & s & Hn & (rest & -> & Hne & Hrest)%path_re_spec & Hs)%cat_inv.
    apply cat_inv in Hs as (s1 & u & -> & (c & -> & Hc)%class_inv & Hu).
    apply bool_decide_eq_true in Hc as ->. apply unit_re_terms in Hu.
    assert (n = "/" +:+ string_of_list_ascii rest +:+ ":"
                +:+ string_of_list_ascii u) as ->.
    { apply bytes_inj. rewrite Hn, !bytes_app, !bytes_of_list. done. }
    split.
    + change ("/" +:+ string_of_list_ascii rest +:+ ":" +:+ string_of_list_ascii u)
        with (("/" +:+ string_of_list_ascii rest) +:+ ":" +:+ string_of_list_ascii u).
      rewrite Count_split.
      assert (Count ("/" +:+ string_of_list_ascii rest) ":" = 0) as ->.
      { apply Count_zero. intros x. rewrite bytes_app, bytes_of_list.
        intros [->|Hx]%elem_of_cons; [done | by apply Hrest]. }
      assert (Count (string_of_list_ascii u) ":" = 0) as ->; [|done].
      apply Count_zero. intros x. rewrite bytes_of_list.
      by apply unit_terms_no_colon.
    + exists ("/" +:+ string_of_list_ascii rest), (string_of_list_ascii u).
      split; [done|]. split; [|by rewrite bytes_of_list].
      exists (string_of_list_ascii rest). split; [done|].
      intros H. apply Hne. by rewrite <- (bytes_of_list rest), H.
  - intros (Hcount & path & unit & -> & (rest & -> & Hne) & Hu).
    rewrite Count_split in Hcount.
    assert (Count ("/" +:+ rest) ":" = 0) as Hpath by lia.
    rewrite !bytes_app. apply matches_cat.
    + apply path_re_spec. exists (bytes rest). split; [done|]. split.
      * intros H. apply Hne. by apply bytes_inj.
      * intros x Hx. eapply Count_zero; [exact Hpath|].
        rewrite bytes_app. simpl. by right.
    + apply (matches_cat _ _ [":"%char] (bytes unit)); [by constructor|].
      by apply unit_re_terms.
Qed.

End Grammar.

(** ** The accessor and the shared backing array *)
Section Accessor.
Implicit Types (p : Process) (s : Slice) (d : Description) (i : nat).

Lemma catalog_unfold : catalog = allDesc_literal.
Proof. reflexivity. Qed.

Lemma wf_init : wf init.
Proof. exists allDesc_literal. split; [by vm_compute | done]. Qed.

Lemma observe_All_init : observe All init = Some catalog.
Proof. reflexivity. Qed.

(** [All] returns the package's own slice header and touches nothing. *)
Lemma All_spec p : All p = Ok (allDesc p) p.
Proof. done. Qed.

(** A well-formed package state shows some list through [allDesc]. *)
Lemma wf_elements p : wf p → is_Some (elements (allDesc p) p).
Proof. intros (a & Ha & _). unfold elements. rewrite Ha. by eexists. Qed.

(** The write goes to the array that [allDesc] points to. *)
Lemma overwrite_then_All_spec p l i d :
  elements (allDesc p) p = Some l →
  i < len (allDesc p) →
  ∃ p', overwrite_then_All i d p = Ok (allDesc p) p' ∧
        allDesc p' = allDesc p ∧
        elements (allDesc p) p' = Some (<[i:=d]> l).
Proof.
  unfold elements, overwrite_then_All, mbind, Go_bind, All, store.
  destruct (heap p !! ptr (allDesc p)) as [a|] eqn:Ha; [|done].
  intros [= <-] Hi. rewrite decide_True by done. simpl.
  eexists. split; [done|]. split; [done|]. simpl.
  rewrite lookup_insert_eq. simpl. by rewrite take_insert_lt.
Qed.

(** Out of range, the write panics and the registry stays as it was. *)
Lemma overwrite_out_of_range p i d :
  len (allDesc p) ≤ i →
  overwrite_then_All i d p = Panic "index out of range" p.
Proof.
  intros Hi. unfold overwrite_then_All, mbind, Go_bind, All, store.
  rewrite decide_False by lia. done.
Qed.

(** Well-formedness is kept by a caller's writes. *)
Lemma store_wf p s i d p' : wf p → store s i d p = Ok () p' → wf p'.
Proof.
  intros (a & Ha & Hlen). unfold store.
  destruct (decide (i < len s)); [|done].
  destruct (heap p !! ptr s) as [b|] eqn:Hb; [|done].
  intros [= <-]. unfold wf. simpl.
  destruct (decide (ptr s = ptr (allDesc p))) as [He|Hne].
  - rewrite He, lookup_insert_eq. rewrite He, Ha in Hb. injection Hb as <-.
    eexists. split; [done|]. by rewrite length_insert.
  - rewrite lookup_insert_ne by done. by exists a.
Qed.

(** No write moves or resizes the package's slice. *)
Lemma store_allDesc p s i d : allDesc (after (store s i d) p) = allDesc p.
Proof.
  unfold after, store. destruct (decide (i < len s)); [|done].
  by destruct (heap p !! ptr s).
Qed.

Lemma caller_writes_allDesc ws p : allDesc (caller_writes ws p) = allDesc p.
Proof.
  revert p. induction ws as [|[[s i] d] ws IH]; intros p; simpl; [done|].
  by rewrite IH, store_allDesc.
Qed.

Lemma caller_writes_wf ws p : wf p → wf (caller_writes ws p).
Proof.
  revert p. induction ws as [|[[s i] d] ws IH]; intros p Hp; simpl; [done|].
  apply IH. unfold after. destruct (store s i d p) as [[] p'|msg p'] eqn:Hst.
  - by eapply store_wf.
  - unfold store in Hst. destruct (decide (i < len s)).
    + destruct (heap p !! ptr s); [done | by injection Hst as _ <-].
    + by injection Hst as _ <-.
Qed.

End Accessor.

(** ** Prefixes, suffixes and cuts *)
Section Strings.
Implicit Types (s pre suf : string) (c : ascii).

Lemma append_String c s1 s2 : String c s1 +:+ s2 = String c (s1 +:+ s2).
Proof. done. Qed.

Lemma append_Empty s : EmptyString +:+ s = s.
Proof. done. Qed.

Lemma HasSuffix_spec s suf : HasSuffix s suf = true ↔ ∃ pre, s = pre +:+ suf.
Proof.
  split.
  - induction s as [|x s IH]; simpl.
    + destruct (decide (EmptyString = suf)) as [<-|]; [|done].
      intros _. by exists EmptyString.
    + destruct (decide (String x s = suf)) as [<-|].
      * intros _. by exists EmptyString.
      * intros [pre ->]%IH. by exists (String x pre).
  - intros [pre ->]. induction pre as [|x pre IH].
    + rewrite append_Empty. destruct suf as [|y suf]; simpl; [done|].
      by destruct (decide (String y suf = String y suf)).
    + rewrite append_String. simpl. by destruct (decide _).
Qed.

Lemma HasPrefix_spec s pre : HasPrefix s pre = true ↔ ∃ rest, s = pre +:+ rest.
Proof.
  unfold HasPrefix. revert s. induction pre as [|x pre IH]; intros s.
  - destruct s; simpl; split; eauto.
  - setoid_rewrite append_String. destruct s as [|y s]; simpl.
    + split; [done | by intros [? ?]].
    + destruct (ascii_dec x y) as [<-|Hne].
      * rewrite IH. split; intros [rest Hr]; exists rest; congruence.
      * split; [done | intros [? ?]; congruence].
Qed.

(** [Cut] splits at the first separator. *)
Lemma Cut_Some s c a b :
  Cut s c = Some (a, b) ↔
  s = a +:+ String c b ∧ ∀ x, x ∈ bytes a → x ≠ c.
Proof.
  revert a. induction s as [|x s IH]; intros a; simpl.
  - split; [done|]. intros [H _]. by destruct a.
  - assert (Hrec : ∀ a', String x s = a' +:+ String c b →
                         (∀ z, z ∈ bytes a' → z ≠ c) → x ≠ c →
                         ∃ a0, a' = String x a0 ∧ Cut s c = Some (a0, b)).
    { intros a' Hs Ha Hx. destruct a' as [|y a0].
      - rewrite append_Empty in Hs. congruence.
      - rewrite append_String in Hs. injection Hs as <- Hs.
        exists a0. split; [done|]. apply IH. split; [done|].
        intros z Hz. apply Ha. by right. }
    destruct (decide (x = c)) as [->|Hx].
    + split.
      * intros [= <- <-]. split; [done|]. intros x Hx. by apply elem_of_nil in Hx.
      * intros [Hs Ha]. destruct a as [|y a].
        -- rewrite append_Empty in Hs. by injection Hs as ->.
        -- rewrite append_String in Hs. injection Hs as <- _.
           exfalso. apply (Ha c); [|done]. by left.
    + destruct (Cut s c) as [[a' b']|] eqn:Hcut; simpl; split.
      * intros [= <- <-]. destruct (proj1 (IH a') eq_refl) as [-> Ha'].
        split; [done|].
        intros y [->|Hy]%elem_of_cons; auto.
      * intros [Hs Ha]. destruct (Hrec a Hs Ha Hx) as (a0 & -> & Ha0).
        congruence.
      * done.
      * intros [Hs Ha]. destruct (Hrec a Hs Ha Hx) as (a0 & -> & Ha0).
        congruence.
Qed.

End Strings.

(** ** Byte-wise order of names *)
Section Order.
Implicit Types (d : Description) (l : list Description).

Lemma compare_Lt_le (a b : string) :
  String.compare a b = Lt ↔ String.le a b ∧ a ≠ b.
Proof.
  unfold String.le, String.leb. split.
  - intros H. rewrite H. split; [done|]. intros ->.
    pose proof (String.compare_antisym b b) as Hopp.
    rewrite H in Hopp. done.
  - intros [Hle Hne]. destruct (String.compare a b) eqn:Hc; [|done|done].
    by apply String.compare_eq_iff in Hc.
Qed.

Global Instance name_lt_irrefl : Irreflexive name_lt.
Proof. intros d H. unfold name_lt in H. by apply compare_Lt_le in H as [_ ?]. Qed.

Global Instance name_lt_trans : Transitive name_lt.
Proof.
  intros d1 d2 d3. unfold name_lt. rewrite !compare_Lt_le.
  intros [H12 Hne12] [H23 Hne23]. split; [by etrans|].
  intros H13. rewrite <- H13 in H23. apply Hne12. by apply (anti_symm String.le).
Qed.

Lemma Sorted_sorted_by_name l : Sorted name_lt l ↔ sorted_by_name l.
Proof.
  unfold sorted_by_name. induction l as [|d l IH].
  - split; [intros _ i ? ? H; by destruct i | constructor].
  - split.
    + intros [Hl Hd]%Sorted_inv i d1 d2. destruct i as [|i]; simpl.
      * intros [= <-] H2. destruct Hd as [|y l' Hy]; [done|].
        simpl in H2. by injection H2 as <-.
      * by apply IH.
    + intros H. constructor.
      * apply IH. intros i d1 d2. apply (H (S i)).
      * destruct l as [|y l']; constructor. by apply (H 0).
Qed.

Lemma StronglySorted_lookup_lt l i j d1 d2 :
  StronglySorted name_lt l → i < j →
  l !! i = Some d1 → l !! j = Some d2 → name_lt d1 d2.
Proof.
  intros Hl. revert i j. induction Hl as [|d l Hl IH Hd]; intros i j Hij.
  - by destruct i.
  - destruct i as [|i], j as [|j]; simpl; try lia.
    + intros [= <-] Hj. rewrite Forall_forall in Hd. apply Hd.
      by eapply list_elem_of_lookup_2.
    + apply IH. lia.
Qed.

(** Strict order leaves no room for two entries of one name. *)
Lemma sorted_names_distinct l : sorted_by_name l → names_distinct l.
Proof.
  intros Hl%Sorted_sorted_by_name%Sorted_StronglySorted; [|apply _].
  intros i j d1 d2 Hij H1 H2 Heq.
  destruct (decide (i < j)).
  - assert (name_lt d1 d2) as Hlt by by eapply StronglySorted_lookup_lt.
    unfold name_lt in Hlt. apply compare_Lt_le in Hlt as [_ ?]. done.
  - assert (name_lt d2 d1) as Hlt
      by (eapply (StronglySorted_lookup_lt l j i); [done|lia|done..]).
    unfold name_lt in Hlt. apply compare_Lt_le in Hlt as [_ ?]. done.
Qed.

Lemma catalog_sorted : sorted_by_name catalog.
Proof.
  apply Sorted_sorted_by_name.
  apply (bool_decide_unpack _). by vm_compute.
Qed.

End Order.

(** * The claims *)

(** C1, as stated, fails: a caller writes [scribble] at index 0 of the
    sequence it got from [All()], and the next call to [All()] shows
    [scribble] first instead of the original first descriptor. *)
Lemma All_is_not_a_copy :
  observe All init = Some catalog ∧
  observe (overwrite_then_All 0 scribble) init = Some (scribble :: tail catalog) ∧
  observe (overwrite_then_All 0 scribble) init ≠ Some catalog.
Proof. split; [|split]; [by vm_compute..|]. vm_compute. discriminate. Qed.

(** C1, as amended: [All()] returns the registry's own slice, not a copy.
    A write of [d] at an in-range index [i] through the sequence returned
    by one call is visible through the sequence returned by the next call:
    the second call shows the list that the first call showed with element
    [i] replaced by [d], every other element and the length unchanged. *)
Theorem All_shares_backing_array (p : Process) (l : list Description)
    (i : nat) (d : Description) :
  observe All p = Some l →
  i < length l →
  ∃ l', observe (overwrite_then_All i d) p = Some l' ∧
        l' = <[i:=d]> l ∧
        l' !! i = Some d ∧
        length l' = length l ∧
        ∀ j, j ≠ i → l' !! j = l !! j.
Proof.
  intros Hl Hi. change (elements (allDesc p) p = Some l) in Hl.
  assert (i < len (allDesc p)) as Hlen.
  { unfold elements in Hl. destruct (heap p !! _); [|done].
    injection Hl as <-. rewrite length_take in Hi. lia. }
  destruct (overwrite_then_All_spec p l i d Hl Hlen) as (p' & Hrun & _ & Hel).
  exists (<[i:=d]> l). unfold observe. rewrite Hrun.
  split; [done|]. split; [done|]. split; [by apply list_lookup_insert_eq|].
  split; [apply length_insert|].
  intros j Hj. by apply list_lookup_insert_ne.
Qed.

Lemma All_shares_backing_array_witness :
  ∃ l', observe (overwrite_then_All 0 scribble) init = Some l' ∧
        l' = <[0:=scribble]> catalog ∧
        l' !! 0 = Some scribble ∧
        length l' = length catalog ∧
        ∀ j, j ≠ 0 → l' !! j = catalog !! j.
Proof.
  apply (All_shares_backing_array init catalog 0 scribble).
  - reflexivity.
  - vm_compute. lia.
Defined.

(** C7: [All()] is deterministic and stable.  In any state a call returns
    (it cannot fail) and leaves the state as it was (no side effect); two
    calls in a row, and two calls with any caller writes in between, return
    the same slice: the same length, and the same element at every index
    whenever the two are read. *)
Theorem All_deterministic (p : Process)
    (ws : list (Slice * nat * Description)) :
  ∃ s1 s2, All p = Ok s1 p ∧
           All_twice p = Ok (s1, s2) p ∧
           All (caller_writes ws p) = Ok s2 (caller_writes ws p) ∧
           s1 = s2 ∧
           len s1 = len s2 ∧
           (∀ i q, index s1 i q = index s2 i q) ∧
           ∀ q, elements s1 q = elements s2 q.
Proof.
  exists (allDesc p), (allDesc p). repeat split.
  unfold All. by rewrite caller_writes_allDesc.
Qed.

(** C2: every name in the catalog matches the naming grammar: it is
    accepted by the regular expression of the doc comment, and so it has
    exactly one [:], a path before it that starts with [/] and is not empty
    after the [/], and after it one or more non-empty unit terms free of
    [:], [*] and [/], joined by [*] or [/].  The two example names split at
    their single [:] into path and unit. *)
Theorem catalog_names_well_formed :
  Forall (λ d, matches name_re (bytes (Name d)) ∧ well_named (Name d)) catalog ∧
  (Count "/gc/heap/goal:bytes" ":" = 1 ∧
   Cut "/gc/heap/goal:bytes" ":" = Some ("/gc/heap/goal", "bytes")%string ∧
   splits_as "/gc/heap/goal:bytes" "/gc/heap/goal" "bytes") ∧
  (Count "/gc/heap/allocs-by-size:bytes" ":" = 1 ∧
   Cut "/gc/heap/allocs-by-size:bytes" ":"
     = Some ("/gc/heap/allocs-by-size", "bytes")%string ∧
   splits_as "/gc/heap/allocs-by-size:bytes" "/gc/heap/allocs-by-size" "bytes").
Proof.
  split; [|by vm_compute].
  assert (Forall (λ d, re_match name_re (bytes (Name d)) = true) catalog) as H.
  { apply (bool_decide_unpack _). by vm_compute. }
  eapply Forall_impl; [exact H|]. intros d Hd. simpl in Hd.
  apply re_match_spec in Hd. split; [done|]. by apply name_re_well_named.
Qed.

(** C3: names are unique across the catalog: descriptors at distinct
    indices have different names. *)
Theorem catalog_names_unique (i j : nat) (d1 d2 : Description) :
  i ≠ j → catalog !! i = Some d1 → catalog !! j = Some d2 →
  Name d1 ≠ Name d2.
Proof. exact (sorted_names_distinct catalog catalog_sorted i j d1 d2). Qed.

Lemma catalog_names_unique_witness :
  ("/gc/cycles/automatic:gc-cycles" ≠ "/gc/cycles/forced:gc-cycles")%string.
Proof.
  refine (catalog_names_unique 0 1
            (mkDescription "/gc/cycles/automatic:gc-cycles" _ _ _)
            (mkDescription "/gc/cycles/forced:gc-cycles" _ _ _) _ _ _).
  - lia.
  - reflexivity.
  - reflexivity.
Defined.

(** C4: filtering the catalog for the histogram kind yields all and only
    the distribution-typed metrics: the four entries whose description
    says they are a distribution.  [/gc/heap/allocs-by-size:bytes] and
    [/gc/pauses:seconds] are among them and [/gc/heap/goal:bytes] is not. *)
Theorem histogram_filter :
  Name <$> of_kind KindFloat64Histogram catalog =
    ["/gc/heap/allocs-by-size:bytes"; "/gc/heap/frees-by-size:bytes";
     "/gc/pauses:seconds"; "/sched/latencies:seconds"]%string ∧
  Forall (λ d, d ∈ of_kind KindFloat64Histogram catalog ↔
               HasPrefix (Description_ d) "Distribution" = true) catalog ∧
  ("/gc/heap/allocs-by-size:bytes"%string
     ∈ Name <$> of_kind KindFloat64Histogram catalog) ∧
  ("/gc/pauses:seconds"%string
     ∈ Name <$> of_kind KindFloat64Histogram catalog) ∧
  ("/gc/heap/goal:bytes"%string ∈ Name <$> catalog) ∧
  ("/gc/heap/goal:bytes"%string
     ∉ Name <$> of_kind KindFloat64Histogram catalog).
Proof.
  split; [reflexivity|]. split.
  - assert (Forall (λ d, Kind d = KindFloat64Histogram ↔
                         HasPrefix (Description_ d) "Distribution" = true)
                   catalog) as H.
    { apply (bool_decide_unpack _). by vm_compute. }
    rewrite Forall_forall in H. apply Forall_forall. intros d Hd.
    unfold of_kind. rewrite list_elem_of_filter, <- (H d Hd). tauto.
  - repeat split; apply (bool_decide_unpack _); by vm_compute.
Qed.

(** C5: every descriptor of the catalog whose name ends in
    [-by-size:bytes] is cumulative. *)
Theorem by_size_cumulative (d : Description) :
  d ∈ catalog →
  (∃ pre, Name d = pre +:+ "-by-size:bytes") →
  Cumulative d = true.
Proof.
  intros Hd Hsuf%HasSuffix_spec.
  assert (Forall (λ d, HasSuffix (Name d) "-by-size:bytes" = true →
                       Cumulative d = true) catalog) as H.
  { apply (bool_decide_unpack _). by vm_compute. }
  rewrite Forall_forall in H. by apply H.
Qed.

Lemma by_size_cumulative_witness :
  Cumulative
    {| Name := "/gc/heap/allocs-by-size:bytes";
       Description_ := "Distribution of heap allocations by approximate size. " +:+
         "Note that this does not include tiny objects as defined by " +:+
         "/gc/heap/tiny/allocs:objects, only tiny blocks.";
       Kind := KindFloat64Histogram;
       Cumulative := true |} = true.
Proof.
  apply by_size_cumulative.
  - apply (bool_decide_unpack _). by vm_compute.
  - by exists "/gc/heap/allocs"%string.
Defined.

(** C6: the catalog has a descriptor named [/memory/classes/total:bytes]
    that is not cumulative (its description ends by saying that it is the
    sum of all metrics in [/memory/classes]), and the descriptors under
    [/memory/classes/] other than the total are not an empty set (there are
    thirteen). *)
Theorem memory_classes_total :
  (∃ d, d ∈ catalog ∧ Name d = "/memory/classes/total:bytes"%string ∧
        Cumulative d = false ∧
        HasSuffix (Description_ d) "Sum of all metrics in /memory/classes."
          = true) ∧
  memory_classes_parts catalog ≠ [] ∧
  length (memory_classes_parts catalog) = 13.
Proof.
  split; [|split; [by vm_compute | reflexivity]].
  destruct (catalog !! 27) as [d|] eqn:Hd; [|by vm_compute in Hd].
  exists d. split; [by eapply list_elem_of_lookup_2|].
  vm_compute in Hd. injection Hd as <-. by vm_compute.
Qed.

(** C8: every description in the catalog is non-empty and ends with
    terminal punctuation, namely a full stop. *)
Theorem descriptions_are_sentences :
  Forall (λ d, Description_ d ≠ EmptyString ∧
               ends_sentence (Description_ d) = true ∧
               ∃ body, Description_ d = body +:+ ".") catalog.
Proof.
  assert (Forall (λ d, Description_ d ≠ EmptyString ∧
                       ends_sentence (Description_ d) = true ∧
                       HasSuffix (Description_ d) "." = true) catalog) as H.
  { apply (bool_decide_unpack _). by vm_compute. }
  eapply Forall_impl; [exact H|]. intros d (? & ? & ?%HasSuffix_spec). done.
Qed.

(** C9: the catalog is strictly sorted in ascending byte-wise order of
    name: of two adjacent descriptors the earlier name compares strictly
    less than the later one.  Any list so sorted has pairwise distinct
    names, so this entails the uniqueness of names. *)
Theorem catalog_sorted_by_name :
  sorted_by_name catalog ∧
  Sorted name_lt catalog ∧
  (∀ l, sorted_by_name l → names_distinct l) ∧
  names_distinct catalog.
Proof.
  split; [apply catalog_sorted|]. split.
  - apply Sorted_sorted_by_name, catalog_sorted.
  - split; [apply sorted_names_distinct|].
    apply sorted_names_distinct, catalog_sorted.
Qed.

(** C10: not every histogram is cumulative: the catalog has a descriptor
    named [/sched/latencies:seconds] of kind [KindFloat64Histogram] whose
    [Cumulative] field is false. *)
Theorem sched_latencies_not_cumulative :
  (∃ d, d ∈ catalog ∧ Name d = "/sched/latencies:seconds"%string ∧
        Kind d = KindFloat64Histogram ∧ Cumulative d = false) ∧
  ¬ Forall (λ d, Kind d = KindFloat64Histogram → Cumulative d = true) catalog.
Proof.
  split.
  - eexists (mkDescription "/sched/latencies:seconds" _ KindFloat64Histogram false).
    split; [|done]. apply list_elem_of_lookup. by exists 29.
  - apply (bool_decide_unpack _). by vm_compute.
Qed.

(** * Further properties of the format *)
Section Format.
Implicit Types (n path unit : string) (u t : list ascii) (c : ascii).

Lemma unit_terms_last u :
  unit_terms u →
  ∃ x, last u = Some x ∧ x ≠ ":"%char ∧ x ≠ "*"%char ∧ x ≠ "/"%char.
Proof.
  induction 1 as [t [Hne Ht]|t d u _ _ _ (x & Hx & Hok)].
  - destruct (last t) as [x|] eqn:Hx; [|by apply last_None in Hx].
    exists x. split; [done|]. by apply Ht, last_Some_elem_of.
  - exists x. split; [|done].
    change (t ++ d :: u) with (t ++ [d] ++ u).
    rewrite !app_assoc, last_app, Hx. done.
Qed.

Lemma HasSuffix_last n c :
  HasSuffix n (String c EmptyString) = true → last (bytes n) = Some c.
Proof.
  intros [pre ->]%HasSuffix_spec. rewrite bytes_app. apply last_snoc.
Qed.

(** The parts of a well-formed name: no colon in the path. *)
Lemma well_named_parts n :
  well_named n →
  ∃ rest unit, n = ("/" +:+ rest) +:+ ":" +:+ unit ∧
               rest ≠ EmptyString ∧
               (∀ x, x ∈ bytes rest → x ≠ ":"%char) ∧
               unit_terms (bytes unit).
Proof.
  intros (Hcount & path & unit & -> & (rest & -> & Hne) & Hu).
  exists rest, unit. split; [done|]. split; [done|]. split; [|done].
  rewrite Count_split in Hcount.
  assert (Count ("/" +:+ rest) ":" = 0) as Hpath by lia.
  intros x Hx. eapply Count_zero; [exact Hpath|].
  rewrite bytes_app. simpl. by right.
Qed.

End Format.

(** X1: a name that the format accepts is cut at its colon into the two
    groups of the format: the path (accepted by the path part) and the
    unit (accepted by the unit part); and no other way of writing the name
    as something, a colon and something gives other parts. *)
Theorem name_format_cut (n : string) :
  matches name_re (bytes n) →
  ∃ path unit,
    Cut n ":" = Some (path, unit) ∧
    name_path n = Some path ∧ name_unit n = Some unit ∧
    n = path +:+ ":" +:+ unit ∧
    matches path_re (bytes path) ∧
    matches unit_re (bytes unit) ∧
    ∀ path' unit', n = path' +:+ ":" +:+ unit' →
                   path' = path ∧ unit' = unit.
Proof.
  intros Hn%name_re_well_named.
  pose proof Hn as [Hcount _].
  apply well_named_parts in Hn as (rest & unit & -> & Hne & Hrest & Hu).
  assert (Hcut : ∀ a b, ("/" +:+ rest) +:+ ":" +:+ unit = a +:+ ":" +:+ b →
                        Cut (("/" +:+ rest) +:+ ":" +:+ unit) ":" = Some (a, b)).
  { intros a b Hab. apply Cut_Some. split; [done|].
    rewrite Hab in Hcount. rewrite Count_split in Hcount.
    apply Count_zero. lia. }
  exists ("/" +:+ rest), unit.
  pose proof (Hcut _ _ eq_refl) as Hc.
  unfold name_path, name_unit. rewrite Hc. repeat split.
  - apply path_re_spec. exists (bytes rest). split; [done|]. split; [|done].
    intros H. apply Hne. by apply bytes_inj.
  - by apply unit_re_terms.
  - apply Hcut in H. rewrite Hc in H. by injection H as <- <-.
  - apply Hcut in H. rewrite Hc in H. by injection H as <- <-.
Qed.

Lemma name_format_cut_witness :
  ∃ path unit,
    Cut "/memory/heap/free:bytes" ":" = Some (path, unit) ∧
    name_path "/memory/heap/free:bytes" = Some path ∧
    name_unit "/memory/heap/free:bytes" = Some unit ∧
    "/memory/heap/free:bytes"%string = path +:+ ":" +:+ unit ∧
    matches path_re (bytes path) ∧
    matches unit_re (bytes unit) ∧
    ∀ path' unit', "/memory/heap/free:bytes"%string = path' +:+ ":" +:+ unit' →
                   path' = path ∧ unit' = unit.
Proof.
  apply (name_format_cut "/memory/heap/free:bytes").
  apply re_match_spec. vm_compute. reflexivity.
Defined.

(** X2: what the format rejects.  A name is not accepted when it does not
    have exactly one colon, when it does not start with [/], when nothing
    stands between the [/] and the colon, or when it ends with a colon or
    with one of the unit delimiters [*] and [/]. *)
Theorem name_format_rejects (n : string) :
  Count n ":" ≠ 1 ∨
  HasPrefix n "/" = false ∨
  HasPrefix n "/:" = true ∨
  HasSuffix n ":" = true ∨ HasSuffix n "*" = true ∨ HasSuffix n "/" = true →
  re_match name_re (bytes n) = false.
Proof.
  intros Hbad. destruct (re_match name_re (bytes n)) eqn:Hm; [|done].
  exfalso. apply re_match_spec, name_re_well_named in Hm.
  pose proof Hm as [Hcount _].
  apply well_named_parts in Hm as (rest & unit & -> & Hne & Hrest & Hu).
  apply unit_terms_last in Hu as (x & Hx & Hx1 & Hx2 & Hx3).
  assert (Hlast : last (bytes (("/" +:+ rest) +:+ ":" +:+ unit)) = Some x).
  { rewrite !bytes_app, !app_assoc, last_app, Hx. done. }
  destruct Hbad as [H|[H|[H|[H|[H|H]]]]].
  - done.
  - assert (HasPrefix (("/" +:+ rest) +:+ ":" +:+ unit) "/" = true) as H'.
    { apply HasPrefix_spec. by exists (rest +:+ ":" +:+ unit). }
    congruence.
  - apply HasPrefix_spec in H as [r Hr]. apply (f_equal bytes) in Hr.
    rewrite !bytes_app in Hr. simpl in Hr. injection Hr as Hr.
    destruct rest as [|y rest]; [done|]. simpl in Hr. injection Hr as -> _.
    apply (Hrest ":"%char); [|done]. simpl. by left.
  - apply HasSuffix_last in H. congruence.
  - apply HasSuffix_last in H. congruence.
  - apply HasSuffix_last in H. congruence.
Qed.

Lemma name_format_rejects_witness :
  re_match name_re (bytes "/memory/heap/free:bytes/") = false.
Proof.
  apply name_format_rejects.
  right; right; right; right; right. reflexivity.
Defined.

(** X3: the regular expression of the doc comment accepts exactly the
    names the comment describes in prose: one colon; before it a path that
    starts with [/] and goes on; after it one or more non-empty unit names
    without [:], [*] and [/], delimited by [*] or [/]. *)
Theorem name_format_in_words (n : string) :
  re_match name_re (bytes n) = true ↔ well_named n.
Proof. rewrite re_match_spec. apply name_re_well_named. Qed.

(** * Further properties of the accessor *)
Section Writes.
Implicit Types (p : Process) (s : Slice) (d : Description) (i : nat).
Implicit Types (l : list Description).

Lemma observe_All p : observe All p = elements (allDesc p) p.
Proof. done. Qed.

(** A well-formed state shows exactly [len] entries. *)
Lemma wf_observe_length p :
  wf p → ∃ l, observe All p = Some l ∧ length l = len (allDesc p).
Proof.
  intros (a & Ha & Hlen). rewrite observe_All. unfold elements. rewrite Ha.
  eexists. split; [done|]. rewrite length_take. lia.
Qed.

(** One write through the registry's slice, seen by the next [All]; out
    of range nothing is written. *)
Lemma observe_after_store p l i d :
  observe All p = Some l →
  observe All (after (store (allDesc p) i d) p) = Some (<[i:=d]> l).
Proof.
  rewrite !observe_All, store_allDesc. unfold elements, after, store.
  destruct (heap p !! ptr (allDesc p)) as [a|] eqn:Ha; [|done].
  intros [= <-]. destruct (decide (i < len (allDesc p))) as [Hi|Hi]; simpl.
  - rewrite lookup_insert_eq. simpl. by rewrite take_insert_lt.
  - rewrite Ha. simpl. rewrite list_insert_ge; [done|].
    rewrite length_take. lia.
Qed.

End Writes.

(** X7: callers cannot change the shape of the catalog.  Whatever element
    writes callers perform, through whatever slices, [All()] keeps
    returning the same slice header and shows as many entries as before. *)
Theorem caller_writes_keep_shape (p : Process) (l : list Description)
    (ws : list (Slice * nat * Description)) :
  wf p →
  observe All p = Some l →
  ∃ l', observe All (caller_writes ws p) = Some l' ∧
        length l' = length l ∧
        allDesc (caller_writes ws p) = allDesc p.
Proof.
  intros Hwf Hl.
  destruct (wf_observe_length p Hwf) as (l0 & Hl0 & Hlen0).
  destruct (wf_observe_length _ (caller_writes_wf ws p Hwf)) as (l' & Hl' & Hlen').
  exists l'. split; [done|]. rewrite caller_writes_allDesc in Hlen'.
  split; [|apply caller_writes_allDesc]. congruence.
Qed.

Lemma caller_writes_keep_shape_witness :
  ∃ l', observe All
          (caller_writes [(allDesc init, 3, scribble);
                          (mkSlice 7 1 1, 0, scribble);
                          (allDesc init, 99, scribble)] init) = Some l' ∧
        length l' = length catalog ∧
        allDesc (caller_writes [(allDesc init, 3, scribble);
                                (mkSlice 7 1 1, 0, scribble);
                                (allDesc init, 99, scribble)] init)
          = allDesc init.
Proof.
  apply (caller_writes_keep_shape init catalog).
  - exists allDesc_literal. split; [reflexivity | vm_compute; lia].
  - reflexivity.
Defined.

(** X8: a write at an index at or beyond the number of entries that
    [All()] shows panics with an index-out-of-range error and leaves the
    registry as it was: callers cannot extend the catalog in place. *)
Theorem out_of_range_write_panics (p : Process) (l : list Description)
    (i : nat) (d : Description) :
  wf p →
  observe All p = Some l →
  length l ≤ i →
  overwrite_then_All i d p = Panic "index out of range" p ∧
  observe All (after (overwrite_then_All i d) p) = Some l.
Proof.
  intros Hwf Hl Hi.
  destruct (wf_observe_length p Hwf) as (l0 & Hl0 & Hlen0).
  assert (len (allDesc p) ≤ i) as Hlen by (simplify_eq; lia).
  pose proof (overwrite_out_of_range p i d Hlen) as Hrun.
  split; [done|]. unfold after. by rewrite Hrun.
Qed.

Lemma out_of_range_write_panics_witness :
  overwrite_then_All 30 scribble init = Panic "index out of range" init ∧
  observe All (after (overwrite_then_All 30 scribble) init) = Some catalog.
Proof.
  apply (out_of_range_write_panics init catalog 30 scribble).
  - exists allDesc_literal. split; [reflexivity | vm_compute; lia].
  - reflexivity.
  - vm_compute. lia.
Defined.

(** X9: a caller that wants to edit the catalog safely copies it first.
    With the entries copied into an array of the caller's own, a write to
    the copy shows in the copy and not in what [All()] returns. *)
Theorem copy_then_write_is_safe (p : Process) (l : list Description)
    (k : loc) (i : nat) (d : Description) :
  observe All p = Some l →
  heap p !! k = None →
  i < length l →
  ∃ q, store (mkSlice k (length l) (length l)) i d (with_copy k p) = Ok () q ∧
       observe All q = Some l ∧
       elements (mkSlice k (length l) (length l)) q = Some (<[i:=d]> l).
Proof.
  rewrite observe_All. intros Hl Hk Hi.
  assert (k ≠ ptr (allDesc p)) as Hne.
  { intros ->. unfold elements in Hl. by rewrite Hk in Hl. }
  unfold store, with_copy. simpl. rewrite decide_True by done.
  rewrite lookup_insert_eq, Hl. simpl. eexists. split; [done|].
  rewrite observe_All. unfold elements. simpl.
  rewrite insert_insert_eq, lookup_insert_eq, lookup_insert_ne by done.
  split; [done|]. simpl. f_equal. apply take_ge. by rewrite length_insert.
Qed.

Lemma copy_then_write_is_safe_witness :
  ∃ q, store (mkSlice 1 (length catalog) (length catalog)) 0 scribble
         (with_copy 1 init) = Ok () q ∧
       observe All q = Some catalog ∧
       elements (mkSlice 1 (length catalog) (length catalog)) q
         = Some (<[0:=scribble]> catalog).
Proof.
  apply (copy_then_write_is_safe init catalog 1 0 scribble).
  - reflexivity.
  - reflexivity.
  - vm_compute. lia.
Defined.

(** X10: writes through the slice that [All()] returns compose in order.
    After a caller has performed a sequence of writes [(i, d)] through it,
    the next [All()] shows the list shown before with those updates
    applied one after the other (out-of-range ones, which panic, applying
    nothing); so the last write to an index wins, and writing the old
    value back restores the entry. *)
Theorem writes_compose (p : Process) (l : list Description)
    (ws : list (nat * Description)) :
  observe All p = Some l →
  observe All (caller_writes ((λ w, (allDesc p, w.1, w.2)) <$> ws) p)
    = Some (foldl (λ l' w, <[w.1 := w.2]> l') l ws).
Proof.
  intros Hl. remember (allDesc p) as s eqn:Hs. revert p l Hs Hl.
  induction ws as [|[i d] ws IH]; intros p l Hs Hl; simpl; [done|].
  apply IH.
  - by rewrite store_allDesc.
  - subst s. by apply observe_after_store.
Qed.

Lemma writes_compose_witness :
  observe All
    (caller_writes
       ((λ w, (allDesc init, w.1, w.2)) <$>
          [(0, scribble);
           (0, mkDescription "/gc/cycles/automatic:gc-cycles"
                 "Count of completed GC cycles generated by the Go runtime."
                 KindUint64 true)])
       init)
    = Some (foldl (λ l' w, <[w.1 := w.2]> l') catalog
              [(0, scribble);
               (0, mkDescription "/gc/cycles/automatic:gc-cycles"
                     "Count of completed GC cycles generated by the Go runtime."
                     KindUint64 true)]).
Proof. apply (writes_compose init catalog). reflexivity. Defined.

(** * Further properties of the table *)


(** X5: every name of the catalog has a unit of one term (no product or
    quotient of units is in use), one of [gc-cycles], [bytes], [objects],
    [seconds] and [goroutines]; a histogram's unit, which by the doc
    comment is the unit of its buckets, is [bytes] or [seconds]. *)
Theorem catalog_units :
  Forall (λ d, ∃ u, name_unit (Name d) = Some u ∧
                    u ∈ ["gc-cycles"; "bytes"; "objects"; "seconds";
                         "goroutines"]%string ∧
                    (Kind d = KindFloat64Histogram →
                     u ∈ ["bytes"; "seconds"]%string)) catalog.
Proof.
  assert (Forall (λ d,
            name_unit (Name d) ∈
              Some <$> ["gc-cycles"; "bytes"; "objects"; "seconds";
                        "goroutines"]%string ∧
            (Kind d = KindFloat64Histogram →
             name_unit (Name d) ∈ Some <$> ["bytes"; "seconds"]%string))
          catalog) as H.
  { apply (bool_decide_unpack _). by vm_compute. }
  eapply Forall_impl; [exact H|]. intros d [Hu Hh].
  apply list_elem_of_fmap in Hu as (u & Hu & Hin). exists u.
  split; [done|]. split; [done|]. intros Hk. specialize (Hh Hk).
  apply list_elem_of_fmap in Hh as (u' & Hu' & Hin'). congruence.
Qed.

(** X6: the path alone does not identify a metric: the catalog has
    distinct entries with one path ([/gc/heap/allocs] and [/gc/heap/frees]
    each come in [bytes] and in [objects]); entries of the catalog with the
    same path and the same unit are the same entry. *)
Theorem catalog_paths_not_unique :
  ¬ NoDup ((name_path ∘ Name) <$> catalog) ∧
  (name_path "/gc/heap/allocs:bytes" = name_path "/gc/heap/allocs:objects" ∧
   name_path "/gc/heap/frees:bytes" = name_path "/gc/heap/frees:objects") ∧
  NoDup ((λ d, (name_path (Name d), name_unit (Name d))) <$> catalog) ∧
  Forall (λ d1, Forall (λ d2,
            name_path (Name d1) = name_path (Name d2) →
            name_unit (Name d1) = name_unit (Name d2) → d1 = d2) catalog)
         catalog.
Proof.
  split; [|split; [|split]].
  - apply (bool_decide_unpack _). by vm_compute.
  - by vm_compute.
  - apply (bool_decide_unpack _). by vm_compute.
  - apply (bool_decide_unpack _). by vm_compute.
Qed.
